(** * fsm-go: a table-driven finite state machine

    Shallow embedding of [fsm.go] (package [fsm]) and the properties of
    its constructor [NewFSM] and of the two methods of the machine,
    [Emit] and [CurrentState].

    Modelling choices.
    - [StateNode] and [EventType] are Go [int]s.  The program only
      compares them and uses them as map keys, it never computes with
      them, so they are integers of [Z] and no wrap-around is involved.
    - The two-level Go map [map[StateNode]map[EventType]stateInfo] is a
      [gmap] of [gmap]s.  Reading a missing outer key gives Go's nil map,
      and reading a nil map gives "not found": [lookup2] writes that out.
    - A [Callback] is a Go closure [func(Event) bool] that may read and
      write state of the caller.  That state is the type [W] of the
      section; a callback is a function from the event and the caller's
      state to its answer and the new caller's state.  A nil callback is
      [None].  The machine itself is private to the package (the struct
      and its fields are unexported), so it is not part of [W]: a
      callback does not call [Emit] on the machine that is calling it.
    - The methods [Type()] and [Unwrap()] of an event are read-only
      accessors: an event is the record of what they return.
    - Every call of a callback made by the machine is recorded, with the
      call site and the event, in the list [calls] of the environment, so
      that "the ignore hook is invoked exactly once" can be stated. *)

From stdpp Require Import gmap strings list fin_maps.

Local Open Scope Z_scope.

(** ** Data model *)

(** [type StateNode int], [type EventType int] *)
Definition StateNode : Type := Z.
Definition EventType : Type := Z.

(** ** A small state monad

    [Emit] is a method on a pointer and calls closures of the caller: the
    machine and the caller's state are threaded explicitly. *)

Definition State (S A : Type) : Type := S → A * S.

Definition st_ret {S A} (a : A) : State S A := λ s, (a, s).

Definition st_bind {S A B} (c : State S A) (k : A → State S B) : State S B :=
  λ s, let '(a, s') := c s in k a s'.

Notation "'do' x <- c ; k" := (st_bind c (λ x, k))
  (at level 10, x pattern, c at level 100, k at level 200, only parsing).

Section FSM.

(** [Payload] is what [Unwrap] returns ([interface{}] in the source);
    [W] is the caller's state that callbacks may read and write. *)
Context {Payload W : Type}.

(** The interface [Event]: a value answering [Type()] and [Unwrap()].
    ([Type] is a keyword, hence the prime.) *)
Record Event : Type := mkEvent {
  Type' : EventType;
  Unwrap : Payload
}.

(** [type Callback func(Event) bool]; [None] is the nil function. *)
Definition CallbackFn : Type := Event → W → bool * W.
Definition Callback : Type := option CallbackFn.

(** [type TransEdge struct] *)
Record TransEdge : Type := mkTransEdge {
  From : StateNode;
  Event_ : EventType;
  To : StateNode;
  Callback_ : Callback
}.

(** [type stateInfo struct] *)
Record stateInfo : Type := mkStateInfo {
  state : StateNode;
  cb : Callback
}.

(** [type stateMachineImpl struct] *)
Record stateMachineImpl : Type := mkStateMachineImpl {
  graph : gmap StateNode (gmap EventType stateInfo);
  current : StateNode;
  ignore : Callback
}.

(** ** Effects: the caller's state and the record of callback calls *)

(** The two places where [Emit] calls a callback. *)
Inductive Invocation : Type :=
  | IgnoreCall (e : Event)   (* [m.ignore(e)] *)
  | GuardCall (e : Event).   (* [allowTrans(e)] *)

Record Env : Type := mkEnv {
  world : W;
  calls : list Invocation
}.

Definition Eff : Type → Type := State Env.

(** Calling the callback [f] on [e] from the call site [site]. *)
Definition invoke (site : Event → Invocation) (f : CallbackFn) (e : Event)
  : Eff bool :=
  λ env, let '(b, w') := f e (world env) in
         (b, {| world := w'; calls := calls env ++ [site e] |}).

(** ** NewFSM *)

(** The double index [g[s][t]] with its "comma ok" result. *)
Definition lookup2 (g : gmap StateNode (gmap EventType stateInfo))
    (s : StateNode) (t : EventType) : option stateInfo :=
  default ∅ (g !! s) !! t.

(** One round of the loop [for _, edge := range edges] of [NewFSM]; [None]
    is the early [return nil, errors.New(...)].  The inner map is a
    reference: the assignment [transTable[edge.Event] = ...] changes the
    map stored in [m.graph[edge.From]], which the last insertion writes
    out. *)
Definition add_edge (g : gmap StateNode (gmap EventType stateInfo))
    (edge : TransEdge) : option (gmap StateNode (gmap EventType stateInfo)) :=
  let '(transTable, g) :=
    match g !! From edge with
    | Some transTable => (transTable, g)
    | None => (∅, <[From edge := ∅]> g)
    end in
  match transTable !! Event_ edge with
  | Some _ => None
  | None =>
      Some (<[From edge :=
               <[Event_ edge := {| state := To edge; cb := Callback_ edge |}]>
                 transTable]> g)
  end.

Fixpoint build (g : gmap StateNode (gmap EventType stateInfo))
    (edges : list TransEdge) : option (gmap StateNode (gmap EventType stateInfo)) :=
  match edges with
  | [] => Some g
  | edge :: edges =>
      match add_edge g edge with
      | None => None
      | Some g => build g edges
      end
  end.

(** [NewFSM] returns the Go pair [(StateMachine, error)]: either
    [(nil, err)] or [(m, nil)]. *)
Definition NewFSM (st : StateNode) (edges : list TransEdge) (ignore : Callback)
  : option stateMachineImpl * option string :=
  match build ∅ edges with
  | None => (None, Some "invalid fsm"%string)
  | Some g => (Some {| graph := g; current := st; ignore := ignore |}, None)
  end.

(** ** Emit and CurrentState *)

Definition set_current (m : stateMachineImpl) (s : StateNode)
  : stateMachineImpl :=
  {| graph := graph m; current := s; ignore := ignore m |}.

(** [func (m *stateMachineImpl) Emit(e Event) bool]: the result and the
    machine after the call. *)
Definition Emit (m : stateMachineImpl) (e : Event)
  : Eff (bool * stateMachineImpl) :=
  let t := Type' e in
  match lookup2 (graph m) (current m) t with
  | None =>
      match ignore m with
      | Some ig => do _ <- invoke IgnoreCall ig e; st_ret (false, m)
      | None => st_ret (false, m)
      end
  | Some nextState =>
      let state := state nextState in
      let allowTrans := cb nextState in
      match allowTrans with
      | Some allowTrans =>
          do ok <- invoke GuardCall allowTrans e;
          if ok then st_ret (true, set_current m state)
          else st_ret (false, m)
      | None => st_ret (true, set_current m state)
      end
  end.

(** [func (m *stateMachineImpl) CurrentState() StateNode] *)
Definition CurrentState (m : stateMachineImpl)
  : Eff (StateNode * stateMachineImpl) :=
  st_ret (current m, m).

(** ** Driving a machine with a sequence of events *)

(** What a caller observes of one call [m.Emit(e)]: the state the machine
    was in, the event, and the boolean returned. *)
Record Step : Type := mkStep {
  before : StateNode;
  event : Event;
  accepted : bool
}.

(** The caller's loop [for _, e := range es { m.Emit(e) }]. *)
Fixpoint run (m : stateMachineImpl) (es : list Event)
  : Eff (list Step * stateMachineImpl) :=
  match es with
  | [] => st_ret ([], m)
  | e :: es =>
      do r <- Emit m e;
      do r' <- run r.2 es;
      st_ret (mkStep (current m) e r.1 :: r'.1, r'.2)
  end.

(** Build a machine, run a sequence of events against it, and read the
    per-call results and the final [CurrentState()].  [None] when the
    construction fails. *)
Definition fresh_run (st : StateNode) (edges : list TransEdge)
    (ignore : Callback) (es : list Event)
  : Eff (option (list bool * StateNode)) :=
  match NewFSM st edges ignore with
  | (Some m, _) =>
      do r <- run m es;
      do c <- CurrentState r.2;
      st_ret (Some (accepted <$> r.1, c.1))
  | (None, _) => st_ret None
  end.

(** The same construction and the same sequence, twice in a row: the
    second round starts in the caller's state that the first one left. *)
Definition run_twice (st : StateNode) (edges : list TransEdge)
    (ignore : Callback) (es : list Event)
  : Eff (option (list bool * StateNode) * option (list bool * StateNode)) :=
  do r1 <- fresh_run st edges ignore es;
  do r2 <- fresh_run st edges ignore es;
  st_ret (r1, r2).

(** ** Vocabulary of the properties *)

(** The pair that indexes the table. *)
Definition edge_key (edge : TransEdge) : StateNode * EventType :=
  (From edge, Event_ edge).

(** Two transitions, at different places of the list, with the same
    [From] and the same [Event]. *)
Definition has_duplicate (edges : list TransEdge) : Prop :=
  ∃ i j x y, i ≠ j ∧ edges !! i = Some x ∧ edges !! j = Some y ∧
             From x = From y ∧ Event_ x = Event_ y.

(** A pure callback: its answer depends on the event only and it leaves
    the caller's state alone. *)
Definition pure_callback (f : CallbackFn) : Prop :=
  ∃ p : Event → bool, ∀ e w, f e w = (p e, w).

Definition pure_guards (edges : list TransEdge) : Prop :=
  ∀ edge f, edge ∈ edges → Callback_ edge = Some f → pure_callback f.

Definition pure_table (g : gmap StateNode (gmap EventType stateInfo)) : Prop :=
  ∀ s t info f, lookup2 g s t = Some info → cb info = Some f → pure_callback f.

(** The entry that an edge puts into the table. *)
Definition entry_of (edge : TransEdge) : stateInfo :=
  {| state := To edge; cb := Callback_ edge |}.

(** ** The table builder *)

Lemma add_edge_eq g edge :
  add_edge g edge =
    match lookup2 g (From edge) (Event_ edge) with
    | Some _ => None
    | None =>
        Some (<[From edge :=
                 <[Event_ edge := entry_of edge]> (default ∅ (g !! From edge))]> g)
    end.
Proof.
  unfold add_edge, lookup2, entry_of.
  destruct (g !! From edge) as [transTable|]; simpl; [done|].
  by rewrite lookup_empty, insert_insert_eq.
Qed.

Lemma lookup2_insert g s transTable s' t :
  lookup2 (<[s := transTable]> g) s' t =
    if decide (s = s') then transTable !! t else lookup2 g s' t.
Proof.
  unfold lookup2. rewrite lookup_insert. by case_decide.
Qed.

Lemma lookup2_add_edge g edge g' s t :
  add_edge g edge = Some g' →
  lookup2 g' s t =
    if decide (edge_key edge = (s, t)) then Some (entry_of edge)
    else lookup2 g s t.
Proof.
  rewrite add_edge_eq.
  destruct (lookup2 g (From edge) (Event_ edge)) eqn:Hfree; [done|].
  intros [= <-]. rewrite lookup2_insert. unfold edge_key.
  destruct (decide (From edge = s)) as [<-|Hs].
  - rewrite lookup_insert. destruct (decide (Event_ edge = t)) as [<-|Ht].
    + by rewrite decide_True.
    + by rewrite decide_False by congruence.
  - by rewrite decide_False by congruence.
Qed.

Lemma add_edge_is_Some g edge :
  is_Some (add_edge g edge) ↔ lookup2 g (From edge) (Event_ edge) = None.
Proof.
  rewrite add_edge_eq.
  destruct (lookup2 g (From edge) (Event_ edge)); split;
    first [done | by intros [] | by eauto].
Qed.

Lemma build_is_Some g edges :
  is_Some (build g edges) ↔
    NoDup (edge_key <$> edges) ∧
    ∀ edge, edge ∈ edges → lookup2 g (From edge) (Event_ edge) = None.
Proof.
  revert g. induction edges as [|edge edges IH]; intros g; simpl.
  { split; [|by eauto]. intros _. split; [constructor|]. by intros ? ?%elem_of_nil. }
  rewrite NoDup_cons. destruct (add_edge g edge) as [g'|] eqn:Hadd.
  - assert (Hfree : lookup2 g (From edge) (Event_ edge) = None)
      by (apply add_edge_is_Some; eauto).
    rewrite IH. split.
    + intros [Hnd Hall]. split; [split; [|done]|].
      * intros (edge' & Hkey & Hin)%list_elem_of_fmap.
        specialize (Hall _ Hin).
        rewrite (lookup2_add_edge _ _ _ _ _ Hadd) in Hall.
        rewrite decide_True in Hall; [done|].
        by rewrite Hkey.
      * intros edge' [->|Hin]%elem_of_cons; [done|].
        specialize (Hall _ Hin).
        rewrite (lookup2_add_edge _ _ _ _ _ Hadd) in Hall.
        by case_decide.
    + intros [[Hnotin Hnd] Hall]. split; [done|].
      intros edge' Hin. rewrite (lookup2_add_edge _ _ _ _ _ Hadd).
      case_decide as Hkey.
      * destruct Hnotin. apply list_elem_of_fmap. exists edge'. by split.
      * apply Hall. by right.
  - split; [by intros []|]. intros [_ Hall].
    assert (is_Some (add_edge g edge)) as [? ?]; [|congruence].
    apply add_edge_is_Some, Hall. by left.
Qed.

Lemma has_duplicate_NoDup edges :
  has_duplicate edges ↔ ¬ NoDup (edge_key <$> edges).
Proof.
  split.
  - intros (i & j & x & y & Hij & Hi & Hj & HF & HE) Hnd.
    apply Hij. eapply NoDup_lookup; [exact Hnd| |].
    + rewrite list_lookup_fmap, Hi. reflexivity.
    + rewrite list_lookup_fmap, Hj. unfold edge_key. simpl. by rewrite HF, HE.
  - induction edges as [|edge edges IH]; simpl.
    { intros []. constructor. }
    rewrite NoDup_cons. intros Hnot.
    destruct (decide (edge_key edge ∈ edge_key <$> edges)) as [Hin|Hnotin].
    + apply list_elem_of_fmap in Hin as (edge' & Hkey & Hin).
      apply list_elem_of_lookup in Hin as [j Hj].
      exists 0%nat, (S j), edge, edge'. unfold edge_key in Hkey.
      by simplify_eq.
    + destruct IH as (i & j & x & y & Hij & Hi & Hj & HF & HE); [tauto|].
      exists (S i), (S j), x, y. split; [lia|done].
Qed.

Lemma add_edge_taken g edge info :
  lookup2 g (From edge) (Event_ edge) = Some info → add_edge g edge = None.
Proof. intros Htaken. by rewrite add_edge_eq, Htaken. Qed.

Lemma add_edge_free g edge :
  lookup2 g (From edge) (Event_ edge) = None →
  add_edge g edge =
    Some (<[From edge :=
             <[Event_ edge := entry_of edge]> (default ∅ (g !! From edge))]> g).
Proof. intros Hfree. by rewrite add_edge_eq, Hfree. Qed.

(** Two rounds of the loop commute, the failure included. *)
Lemma build_swap g x y edges :
  build g (x :: y :: edges) = build g (y :: x :: edges).
Proof.
  simpl.
  destruct (decide (edge_key x = edge_key y)) as [Hkey|Hkey].
  - (* the same key: whichever comes second is refused *)
    injection Hkey as HF HE.
    destruct (add_edge g x) as [gx|] eqn:Hx, (add_edge g y) as [gy|] eqn:Hy;
      try done.
    + erewrite (add_edge_taken gx y), (add_edge_taken gy x); [done|..].
      * rewrite (lookup2_add_edge _ _ _ _ _ Hy), decide_True; [done|].
        unfold edge_key. by rewrite HF, HE.
      * rewrite (lookup2_add_edge _ _ _ _ _ Hx), decide_True; [done|].
        unfold edge_key. by rewrite HF, HE.
    + apply eq_None_not_Some in Hy. destruct Hy.
      apply add_edge_is_Some. rewrite <-HF, <-HE. apply add_edge_is_Some. eauto.
    + apply eq_None_not_Some in Hx. destruct Hx.
      apply add_edge_is_Some. rewrite HF, HE. apply add_edge_is_Some. eauto.
  - destruct (lookup2 g (From x) (Event_ x)) as [ix|] eqn:Hx,
             (lookup2 g (From y) (Event_ y)) as [iy|] eqn:Hy.
    + by rewrite (add_edge_taken _ _ _ Hx), (add_edge_taken _ _ _ Hy).
    + rewrite (add_edge_taken _ _ _ Hx), (add_edge_free _ _ Hy).
      erewrite add_edge_taken; [done|].
      erewrite lookup2_add_edge by (by apply add_edge_free).
      rewrite decide_False by done. exact Hx.
    + rewrite (add_edge_taken _ _ _ Hy), (add_edge_free _ _ Hx).
      erewrite add_edge_taken; [done|].
      erewrite lookup2_add_edge by (by apply add_edge_free).
      rewrite decide_False by done. exact Hy.
    + rewrite (add_edge_free _ _ Hx), (add_edge_free _ _ Hy).
      rewrite !add_edge_free.
      * f_equal.
        destruct (decide (From x = From y)) as [HF|HF].
        -- rewrite HF, !lookup_insert_eq, !insert_insert_eq. simpl.
           f_equal. apply insert_insert_ne.
           intros HE. apply Hkey. unfold edge_key. by rewrite HF, HE.
        -- rewrite !lookup_insert_ne by done.
           by apply insert_insert_ne.
      * erewrite lookup2_add_edge by (by apply add_edge_free).
        by rewrite decide_False by done.
      * erewrite lookup2_add_edge by (by apply add_edge_free).
        by rewrite decide_False by done.
Qed.

Lemma build_Permutation g edges edges' :
  edges ≡ₚ edges' → build g edges = build g edges'.
Proof.
  intros Hperm. revert g.
  induction Hperm as [|x l l' _ IH|x y l|l l' l'' _ IH1 _ IH2]; intros g.
  - done.
  - simpl. destruct (add_edge g x); [apply IH|done].
  - apply build_swap.
  - by rewrite IH1.
Qed.

(** Every entry of a built table was in the table at the start or comes
    from an edge of the list. *)
Lemma build_lookup2 g edges g' s t info :
  build g edges = Some g' →
  lookup2 g' s t = Some info →
  lookup2 g s t = Some info ∨
  ∃ edge, edge ∈ edges ∧ edge_key edge = (s, t) ∧ info = entry_of edge.
Proof.
  revert g. induction edges as [|edge edges IH]; intros g; simpl.
  { intros [= ->]. by left. }
  destruct (add_edge g edge) as [g1|] eqn:Hadd; [|done].
  intros Hbuild Hlook.
  destruct (IH _ Hbuild Hlook) as [Hold|(edge' & Hin & Hkey & ->)].
  - rewrite (lookup2_add_edge _ _ _ _ _ Hadd) in Hold.
    case_decide as Hkey; [|by left].
    right. exists edge. split; [by left|]. split; congruence.
  - right. exists edge'. split; [by right|done].
Qed.

Lemma lookup2_empty s t : lookup2 ∅ s t = None.
Proof. unfold lookup2. by rewrite lookup_empty. Qed.

Lemma NewFSM_build st edges ig :
  NewFSM st edges ig =
    match build ∅ edges with
    | Some g => (Some {| graph := g; current := st; ignore := ig |}, None)
    | None => (None, Some "invalid fsm"%string)
    end.
Proof. unfold NewFSM. by destruct (build ∅ edges). Qed.

Lemma build_empty_is_Some edges :
  is_Some (build ∅ edges) ↔ NoDup (edge_key <$> edges).
Proof.
  rewrite build_is_Some. split; [by intros []|].
  intros Hnd. split; [done|]. intros. apply lookup2_empty.
Qed.

(** ** The dispatcher *)

Ltac unfold_eff := unfold st_bind, st_ret, invoke in *; simpl in *.

Lemma Emit_no_entry m e env :
  lookup2 (graph m) (current m) (Type' e) = None →
  Emit m e env =
    ((false, m),
     match ignore m with
     | Some ig =>
         {| world := (ig e (world env)).2; calls := calls env ++ [IgnoreCall e] |}
     | None => env
     end).
Proof.
  intros Hnone. unfold Emit. rewrite Hnone.
  destruct (ignore m) as [ig|]; [|done].
  unfold_eff. by destruct (ig e (world env)).
Qed.

Lemma Emit_guarded m e env info f :
  lookup2 (graph m) (current m) (Type' e) = Some info →
  cb info = Some f →
  Emit m e env =
    (if (f e (world env)).1 then (true, set_current m (state info))
     else (false, m),
     {| world := (f e (world env)).2; calls := calls env ++ [GuardCall e] |}).
Proof.
  intros Hsome Hcb. unfold Emit. rewrite Hsome. simpl. rewrite Hcb.
  unfold_eff. by destruct (f e (world env)) as [[] ?].
Qed.

Lemma Emit_unguarded m e env info :
  lookup2 (graph m) (current m) (Type' e) = Some info →
  cb info = None →
  Emit m e env = ((true, set_current m (state info)), env).
Proof.
  intros Hsome Hcb. unfold Emit. rewrite Hsome. simpl. by rewrite Hcb.
Qed.

(** What the result of [Emit] says about the machine it leaves. *)
Lemma Emit_result m e env :
  match (Emit m e env).1 with
  | (true, m') =>
      ∃ info, lookup2 (graph m) (current m) (Type' e) = Some info ∧
              m' = set_current m (state info)
  | (false, m') => m' = m
  end.
Proof.
  destruct (lookup2 (graph m) (current m) (Type' e)) as [info|] eqn:Hlook.
  - destruct (cb info) as [f|] eqn:Hcb.
    + rewrite (Emit_guarded _ _ _ _ _ Hlook Hcb). simpl.
      destruct (f e (world env)).1; eauto.
    + rewrite (Emit_unguarded _ _ _ _ Hlook Hcb). simpl. eauto.
  - by rewrite (Emit_no_entry _ _ _ Hlook).
Qed.

Lemma Emit_graph m e env : graph (Emit m e env).1.2 = graph m.
Proof.
  pose proof (Emit_result m e env) as H.
  destruct (Emit m e env).1 as [[] m']; simpl; [|by subst].
  by destruct H as (? & _ & ->).
Qed.

Lemma Emit_ignore m e env : ignore (Emit m e env).1.2 = ignore m.
Proof.
  pose proof (Emit_result m e env) as H.
  destruct (Emit m e env).1 as [[] m']; simpl; [|by subst].
  by destruct H as (? & _ & ->).
Qed.

Lemma Emit_false m e env :
  (Emit m e env).1.1 = false → (Emit m e env).1.2 = m.
Proof.
  pose proof (Emit_result m e env) as H.
  by destruct (Emit m e env).1 as [[] m'].
Qed.

(** ** Sequences of events *)

Lemma run_cons m e es env :
  run m (e :: es) env =
    ((mkStep (current m) e (Emit m e env).1.1
        :: (run (Emit m e env).1.2 es (Emit m e env).2).1.1,
      (run (Emit m e env).1.2 es (Emit m e env).2).1.2),
     (run (Emit m e env).1.2 es (Emit m e env).2).2).
Proof.
  simpl. unfold st_bind, st_ret.
  destruct (Emit m e env) as [[b m1] env1]. simpl.
  by destruct (run m1 es env1) as [[log m'] env'].
Qed.

Lemma run_graph m es env : graph (run m es env).1.2 = graph m.
Proof.
  revert m env. induction es as [|e es IH]; intros m env; [done|].
  rewrite run_cons. simpl. by rewrite IH, Emit_graph.
Qed.

Lemma run_ignore m es env : ignore (run m es env).1.2 = ignore m.
Proof.
  revert m env. induction es as [|e es IH]; intros m env; [done|].
  rewrite run_cons. simpl. by rewrite IH, Emit_ignore.
Qed.

(** With pure guards the caller's state has no influence on what [Emit]
    returns nor on the machine it leaves. *)
Lemma Emit_pure_table m e env env' :
  pure_table (graph m) → (Emit m e env).1 = (Emit m e env').1.
Proof.
  intros Hpure.
  destruct (lookup2 (graph m) (current m) (Type' e)) as [info|] eqn:Hlook.
  - destruct (cb info) as [f|] eqn:Hcb.
    + rewrite !(Emit_guarded _ _ _ _ _ Hlook Hcb). simpl.
      destruct (Hpure _ _ _ _ Hlook Hcb) as [p Hp]. by rewrite !Hp.
    + by rewrite !(Emit_unguarded _ _ _ _ Hlook Hcb).
  - by rewrite !(Emit_no_entry _ _ _ Hlook).
Qed.

Lemma run_pure_table m es env env' :
  pure_table (graph m) → (run m es env).1 = (run m es env').1.
Proof.
  revert m env env'. induction es as [|e es IH]; intros m env env' Hpure; [done|].
  rewrite !run_cons. simpl.
  rewrite (Emit_pure_table m e env env' Hpure).
  rewrite (IH _ (Emit m e env).2 (Emit m e env').2); [done|].
  by rewrite Emit_graph.
Qed.

Lemma build_pure_table edges g :
  build ∅ edges = Some g → pure_guards edges → pure_table g.
Proof.
  intros Hbuild Hpure s t info f Hlook Hcb.
  destruct (build_lookup2 _ _ _ _ _ _ Hbuild Hlook)
    as [Hempty|(edge & Hin & _ & ->)].
  - by rewrite lookup2_empty in Hempty.
  - by apply (Hpure edge f).
Qed.

(** The state of the machine after a run is the destination of the last
    accepted call, or the state at the start when no call was accepted. *)
Lemma run_latest m es env :
  match last (filter (λ s, accepted s = true) (run m es env).1.1) with
  | Some s =>
      ∃ info, lookup2 (graph m) (before s) (Type' (event s)) = Some info ∧
              current (run m es env).1.2 = state info
  | None => current (run m es env).1.2 = current m
  end.
Proof.
  revert m env. induction es as [|e es IH]; intros m env; [done|].
  rewrite run_cons. simpl.
  specialize (IH (Emit m e env).1.2 (Emit m e env).2).
  rewrite Emit_graph in IH.
  pose proof (Emit_result m e env) as Hres.
  destruct (Emit m e env) as [[b m1] env1]. simpl in *.
  rewrite filter_cons. simpl.
  destruct b.
  - rewrite decide_True by done. rewrite last_cons.
    destruct (last _) as [s|]; [done|].
    destruct Hres as (info & Hlook & ->). exists info. by rewrite IH.
  - rewrite decide_False by done. subst m1.
    by destruct (last _) as [s|].
Qed.

(** A machine with an empty table refuses every event of a sequence, and
    calls the ignore hook, when there is one, once per event. *)
Lemma run_empty_graph m es env :
  graph m = ∅ →
  (run m es env).1 = ((λ e, mkStep (current m) e false) <$> es, m) ∧
  calls (run m es env).2 =
    calls env ++ match ignore m with
                 | Some _ => IgnoreCall <$> es
                 | None => []
                 end.
Proof.
  intros Hempty. revert env. induction es as [|e es IH]; intros env.
  { simpl. split; [done|]. destruct (ignore m); by rewrite app_nil_r. }
  assert (Hnone : lookup2 (graph m) (current m) (Type' e) = None)
    by (rewrite Hempty; apply lookup2_empty).
  rewrite run_cons, (Emit_no_entry _ _ _ Hnone). simpl.
  destruct (IH (match ignore m with
                | Some ig =>
                    {| world := (ig e (world env)).2;
                       calls := calls env ++ [IgnoreCall e] |}
                | None => env
                end)) as [-> ->].
  split; [done|].
  destruct (ignore m); simpl; [|done]. by rewrite <-app_assoc.
Qed.

Lemma fresh_run_built st edges ig es env g :
  build ∅ edges = Some g →
  (fresh_run st edges ig es env).1 =
    Some (accepted <$>
            (run {| graph := g; current := st; ignore := ig |} es env).1.1,
          current (run {| graph := g; current := st; ignore := ig |} es env).1.2).
Proof.
  intros Hbuild. unfold fresh_run. rewrite NewFSM_build, Hbuild.
  unfold st_bind, st_ret, CurrentState.
  by destruct (run _ es env) as [[log m'] env'].
Qed.

Lemma fresh_run_pure st edges ig es env env' :
  NoDup (edge_key <$> edges) →
  pure_guards edges →
  is_Some (fresh_run st edges ig es env).1 ∧
  (fresh_run st edges ig es env).1 = (fresh_run st edges ig es env').1.
Proof.
  intros [g Hbuild]%build_empty_is_Some Hpure.
  rewrite !(fresh_run_built _ _ _ _ _ _ Hbuild).
  split; [by eauto|].
  rewrite (run_pure_table {| graph := g; current := st; ignore := ig |}
             es env env'); [done|].
  by apply (build_pure_table edges).
Qed.

(** ** The properties of the specification *)

(** C1. [NewFSM] fails, returning no machine and the error, exactly when
    two transitions of the edge list share their [From] state and their
    [Event] type, whatever their [To] and [Callback]; and it succeeds,
    returning a machine and no error, exactly when no two transitions do. *)
Theorem NewFSM_fails_iff_duplicate st edges ig :
  (has_duplicate edges ↔
     NewFSM st edges ig = (None, Some "invalid fsm"%string)) ∧
  (¬ has_duplicate edges ↔
     ∃ g, NewFSM st edges ig =
            (Some {| graph := g; current := st; ignore := ig |}, None)).
Proof.
  rewrite NewFSM_build, has_duplicate_NoDup, <-build_empty_is_Some.
  destruct (build ∅ edges) as [g|]; split; split.
  - intros []. eauto.
  - done.
  - eauto.
  - intros _ []. eauto.
  - done.
  - by intros _ [? ?].
  - intros []. by intros [? ?].
  - by intros [? ?].
Qed.

(** C2. When the table has no entry for the current state and the type of
    the event, [Emit] returns false and leaves the machine, hence the
    current state, as it was; a configured ignore hook is called exactly
    once, on that event, and no callback is called when there is none. *)
Theorem Emit_unregistered m e env :
  lookup2 (graph m) (current m) (Type' e) = None →
  (Emit m e env).1 = (false, m) ∧
  current (Emit m e env).1.2 = current m ∧
  match ignore m with
  | Some ig =>
      (Emit m e env).2 =
        {| world := (ig e (world env)).2; calls := calls env ++ [IgnoreCall e] |}
  | None => (Emit m e env).2 = env
  end.
Proof.
  intros Hnone. rewrite (Emit_no_entry _ _ _ Hnone). simpl.
  by destruct (ignore m).
Qed.

(** C3. When the entry for the current state and the type of the event
    has a guard and the guard answers false, [Emit] returns false, the
    current state is unchanged, and the only callback called is the
    guard: the ignore hook is not called. *)
Theorem Emit_guard_rejects m e env info f :
  lookup2 (graph m) (current m) (Type' e) = Some info →
  cb info = Some f →
  (f e (world env)).1 = false →
  (Emit m e env).1 = (false, m) ∧
  current (Emit m e env).1.2 = current m ∧
  calls (Emit m e env).2 = calls env ++ [GuardCall e] ∧
  world (Emit m e env).2 = (f e (world env)).2.
Proof.
  intros Hlook Hcb Hfalse.
  by rewrite (Emit_guarded _ _ _ _ _ Hlook Hcb), Hfalse.
Qed.

(** C4. When the table has an entry for the current state and the type of
    the event, and the entry has no guard or its guard answers true,
    [Emit] returns true and the current state becomes the destination of
    the entry; so it does when the destination is the source state. *)
Theorem Emit_transitions m e env info :
  lookup2 (graph m) (current m) (Type' e) = Some info →
  cb info = None ∨ (∃ f, cb info = Some f ∧ (f e (world env)).1 = true) →
  (Emit m e env).1 = (true, set_current m (state info)) ∧
  current (Emit m e env).1.2 = state info ∧
  (state info = current m → current (Emit m e env).1.2 = current m).
Proof.
  intros Hlook [Hcb|(f & Hcb & Htrue)].
  - by rewrite (Emit_unguarded _ _ _ _ Hlook Hcb).
  - by rewrite (Emit_guarded _ _ _ _ _ Hlook Hcb), Htrue.
Qed.

(** C5. Whenever [Emit] returns false, the current state after the call
    is the current state before it; the whole machine is as it was. *)
Theorem Emit_false_keeps_state m e env :
  (Emit m e env).1.1 = false →
  current (Emit m e env).1.2 = current m ∧ (Emit m e env).1.2 = m.
Proof.
  intros Hfalse. by rewrite (Emit_false _ _ _ Hfalse).
Qed.

(** C6. For an edge list without duplicate keys and with pure guards,
    building a fresh machine from the same inputs and running the same
    sequence of events gives the same booleans, call by call, and the
    same final [CurrentState()]: when the second round follows the first
    one, and more generally from any two states of the caller. *)
Theorem run_deterministic st edges ig es env env' :
  NoDup (edge_key <$> edges) →
  pure_guards edges →
  ∃ bs s,
    (run_twice st edges ig es env).1 = (Some (bs, s), Some (bs, s)) ∧
    (fresh_run st edges ig es env).1 = Some (bs, s) ∧
    (fresh_run st edges ig es env').1 = Some (bs, s).
Proof.
  intros Hnd Hpure.
  destruct (fresh_run_pure st edges ig es env env' Hnd Hpure)
    as [[[bs s] Hrun] Heq].
  exists bs, s. rewrite <-Heq. split; [|done].
  destruct (fresh_run_pure st edges ig es env
              (fresh_run st edges ig es env).2 Hnd Hpure) as [_ Heq2].
  unfold run_twice, st_bind, st_ret.
  destruct (fresh_run st edges ig es env) as [r1 env1]. simpl in *.
  destruct (fresh_run st edges ig es env1) as [r2 env2]. simpl in *.
  congruence.
Qed.

(** C7. A machine built from the empty list of transitions returns false
    on every event and stays in the initial state; after any sequence of
    events it is still the machine that was built, every call was
    refused, and the ignore hook, when there is one, was called once per
    event, in order (no callback was called when there is none). *)
Theorem empty_table_rejects st ig :
  ∃ m, NewFSM st [] ig = (Some m, None) ∧
       current m = st ∧
       (∀ e env,
          (Emit m e env).1 = (false, m) ∧
          calls (Emit m e env).2 =
            calls env ++ match ig with
                         | Some _ => [IgnoreCall e]
                         | None => []
                         end) ∧
       (∀ es env,
          (run m es env).1 = ((λ e, mkStep st e false) <$> es, m) ∧
          (CurrentState (run m es env).1.2 (run m es env).2).1.1 = st ∧
          calls (run m es env).2 =
            calls env ++ match ig with
                         | Some _ => IgnoreCall <$> es
                         | None => []
                         end).
Proof.
  exists {| graph := ∅; current := st; ignore := ig |}.
  split; [done|]. split; [done|]. split.
  - intros e env. rewrite Emit_no_entry by apply lookup2_empty. simpl.
    split; [done|]. destruct ig; simpl; [done|]. by rewrite app_nil_r.
  - intros es env.
    match goal with
    | |- context [run ?m es env] =>
        destruct (run_empty_graph m es env eq_refl) as [Hrun Hcalls]
    end.
    split; [exact Hrun|]. split; [|exact Hcalls].
    by rewrite Hrun.
Qed.

(** C8. [Emit] changes at most the current state: the table and the
    ignore hook of the machine after the call are those before the call,
    whatever the event and the result. *)
Theorem Emit_frame m e env :
  graph (Emit m e env).1.2 = graph m ∧
  ignore (Emit m e env).1.2 = ignore m.
Proof. split; [apply Emit_graph|apply Emit_ignore]. Qed.

(** C9. [CurrentState] only reads: it leaves the machine and the caller's
    state as they are and calls no callback.  After any sequence of
    [Emit] calls on a machine built by [NewFSM] it returns the
    destination of the entry taken by the last call that returned true,
    or the initial state given to [NewFSM] when no call returned true. *)
Theorem CurrentState_latest st edges ig m es env :
  NewFSM st edges ig = (Some m, None) →
  (∀ m' env', CurrentState m' env' = ((current m', m'), env')) ∧
  match last (filter (λ s, accepted s = true) (run m es env).1.1) with
  | Some s =>
      ∃ info,
        lookup2 (graph m) (before s) (Type' (event s)) = Some info ∧
        (CurrentState (run m es env).1.2 (run m es env).2).1.1 = state info
  | None =>
      (CurrentState (run m es env).1.2 (run m es env).2).1.1 = st
  end.
Proof.
  intros Hnew. split; [done|].
  assert (Hst : current m = st).
  { rewrite NewFSM_build in Hnew. destruct (build ∅ edges); by simplify_eq. }
  pose proof (run_latest m es env) as Hlatest. simpl.
  destruct (last _) as [s|]; [done|]. by rewrite <-Hst.
Qed.

(** C10. The order of the edge list does not matter: for two lists that
    are permutations of each other [NewFSM] fails on both or on neither,
    and when it succeeds the two machines have the same table and behave
    the same on every sequence of events. *)
Theorem NewFSM_Permutation st edges edges' ig :
  edges ≡ₚ edges' →
  (NewFSM st edges ig = (None, Some "invalid fsm"%string) ↔
   NewFSM st edges' ig = (None, Some "invalid fsm"%string)) ∧
  (∀ m m',
     (NewFSM st edges ig).1 = Some m →
     (NewFSM st edges' ig).1 = Some m' →
     graph m = graph m' ∧ ∀ es env, run m es env = run m' es env).
Proof.
  intros Hperm. rewrite !NewFSM_build, (build_Permutation ∅ _ _ Hperm).
  split; [done|]. intros m m' Hm Hm'.
  assert (m = m') as -> by congruence. done.
Qed.

(** ** Further properties of the builder *)

(** The loop never overwrites an entry. *)
Lemma build_lookup2_keep g edges g' s t info :
  build g edges = Some g' →
  lookup2 g s t = Some info →
  lookup2 g' s t = Some info.
Proof.
  revert g. induction edges as [|edge edges IH]; intros g; simpl.
  { by intros [= ->]. }
  destruct (add_edge g edge) as [g1|] eqn:Hadd; [|done].
  intros Hbuild Hlook. apply (IH g1); [done|].
  rewrite (lookup2_add_edge _ _ _ _ _ Hadd).
  case_decide as Hkey; [|done].
  assert (Hfree : lookup2 g (From edge) (Event_ edge) = None)
    by (apply add_edge_is_Some; eauto).
  injection Hkey as <- <-. congruence.
Qed.

(** Every edge of the list is in the table that the loop returns. *)
Lemma build_lookup2_edge g edges g' edge :
  build g edges = Some g' →
  edge ∈ edges →
  lookup2 g' (From edge) (Event_ edge) = Some (entry_of edge).
Proof.
  revert g. induction edges as [|x edges IH]; intros g; simpl.
  { by intros _ ?%elem_of_nil. }
  destruct (add_edge g x) as [g1|] eqn:Hadd; [|done].
  intros Hbuild [->|Hin]%elem_of_cons; [|by apply (IH g1)].
  apply (build_lookup2_keep g1 edges); [done|].
  rewrite (lookup2_add_edge _ _ _ _ _ Hadd). by rewrite decide_True.
Qed.

Lemma NewFSM_Some st edges ig m :
  NewFSM st edges ig = (Some m, None) →
  build ∅ edges = Some (graph m) ∧ current m = st ∧ ignore m = ig.
Proof.
  rewrite NewFSM_build. destruct (build ∅ edges) as [g|]; [|done].
  by intros [= <-].
Qed.

Lemma built_lookup2 edges g s t info :
  build ∅ edges = Some g →
  lookup2 g s t = Some info ↔
  ∃ edge, edge ∈ edges ∧ From edge = s ∧ Event_ edge = t ∧
          info = entry_of edge.
Proof.
  intros Hbuild. split.
  - intros Hlook.
    destruct (build_lookup2 _ _ _ _ _ _ Hbuild Hlook)
      as [Hempty|(edge & Hin & Hkey & ->)].
    + by rewrite lookup2_empty in Hempty.
    + injection Hkey as <- <-. by exists edge.
  - intros (edge & Hin & <- & <- & ->).
    by apply (build_lookup2_edge ∅ edges).
Qed.

Lemma built_lookup2_None edges g s t :
  build ∅ edges = Some g →
  lookup2 g s t = None ↔
  ∀ edge, edge ∈ edges → ¬ (From edge = s ∧ Event_ edge = t).
Proof.
  intros Hbuild. split.
  - intros Hnone edge Hin [<- <-].
    by rewrite (build_lookup2_edge _ _ _ _ Hbuild Hin) in Hnone.
  - intros Hno. destruct (lookup2 g s t) as [info|] eqn:Hlook; [|done].
    apply (built_lookup2 _ _ _ _ _ Hbuild) in Hlook
      as (edge & Hin & HF & HE & _).
    by destruct (Hno edge Hin).
Qed.

(** X1. The table of a machine that [NewFSM] returns holds exactly the
    edges of the list: the entry for a state and an event type is the
    destination and the callback of the edge of the list with that
    [From] and that [Event], and there is no entry when the list has no
    such edge.  The machine starts in the state given and keeps the
    ignore hook given. *)
Theorem NewFSM_table st edges ig m :
  NewFSM st edges ig = (Some m, None) →
  current m = st ∧ ignore m = ig ∧
  ∀ s t info,
    lookup2 (graph m) s t = Some info ↔
    ∃ edge, edge ∈ edges ∧ From edge = s ∧ Event_ edge = t ∧
            info = {| state := To edge; cb := Callback_ edge |}.
Proof.
  intros (Hbuild & Hst & Hig)%NewFSM_Some.
  split; [done|]. split; [done|].
  intros s t info. apply (built_lookup2 _ _ _ _ _ Hbuild).
Qed.

(** X2. For a machine whose table was built by [NewFSM] from a list of
    edges: when the list has an edge from the current state for the type
    of the event, [Emit] returns true and moves to the [To] of that edge
    if the edge has no callback or its callback answers true, and
    returns false and stays otherwise; when the list has no such edge,
    [Emit] returns false and stays. *)
Theorem Emit_follows_edges st edges ig m0 m e env :
  NewFSM st edges ig = (Some m0, None) →
  graph m = graph m0 →
  (∀ edge,
     edge ∈ edges → From edge = current m → Event_ edge = Type' e →
     (Emit m e env).1 =
       if match Callback_ edge with
          | Some f => (f e (world env)).1
          | None => true
          end
       then (true, set_current m (To edge))
       else (false, m)) ∧
  ((∀ edge, edge ∈ edges →
            ¬ (From edge = current m ∧ Event_ edge = Type' e)) →
   (Emit m e env).1 = (false, m)).
Proof.
  intros (Hbuild & _ & _)%NewFSM_Some Hgraph. rewrite <-Hgraph in Hbuild.
  split.
  - intros edge Hin HF HE.
    pose proof (build_lookup2_edge _ _ _ _ Hbuild Hin) as Hlook.
    rewrite HF, HE in Hlook.
    destruct (Callback_ edge) as [f|] eqn:Hcb.
    + rewrite (Emit_guarded m e env (entry_of edge) f Hlook Hcb). simpl.
      by destruct (f e (world env)).1.
    + by rewrite (Emit_unguarded m e env (entry_of edge) Hlook Hcb).
  - intros Hno.
    apply (built_lookup2_None _ _ _ _ Hbuild) in Hno.
    by rewrite (Emit_no_entry _ _ _ Hno).
Qed.

(** ** Further properties of the dispatcher *)

(** The state of the machine after the [i]-th call of a run: the state
    before the next call, or the final state after the last call. *)
Definition state_after (log : list Step) (final : StateNode) (i : nat)
  : StateNode :=
  default final (before <$> log !! S i).

Lemma run_head m es env :
  default (current (run m es env).1.2)
    (before <$> (run m es env).1.1 !! 0%nat) = current m.
Proof. destruct es as [|e es]; [done|]. by rewrite run_cons. Qed.

Lemma run_path m es env i s :
  (run m es env).1.1 !! i = Some s →
  if accepted s
  then ∃ info,
         lookup2 (graph m) (before s) (Type' (event s)) = Some info ∧
         state_after (run m es env).1.1 (current (run m es env).1.2) i
           = state info
  else state_after (run m es env).1.1 (current (run m es env).1.2) i
         = before s.
Proof.
  revert m env i. induction es as [|e es IH]; intros m env i; [done|].
  rewrite run_cons. unfold state_after. simpl.
  pose proof (Emit_result m e env) as Hres.
  destruct i as [|i]; simpl.
  - intros [= <-]. simpl. rewrite run_head.
    destruct (Emit m e env).1 as [[] m1]; simpl.
    + destruct Hres as (info & Hlook & ->). by exists info.
    + by subst.
  - intros Hi. specialize (IH _ _ _ Hi). by rewrite Emit_graph in IH.
Qed.

(** A set of states that holds the current state and every destination
    of the table holds every state that a run goes through. *)
Lemma run_closed (P : StateNode → Prop) m es env :
  P (current m) →
  (∀ s t info, lookup2 (graph m) s t = Some info → P (state info)) →
  P (current (run m es env).1.2) ∧
  Forall (λ s, P (before s)) (run m es env).1.1.
Proof.
  revert m env. induction es as [|e es IH]; intros m env Hcur Htable.
  { by split. }
  rewrite run_cons. simpl.
  destruct (IH (Emit m e env).1.2 (Emit m e env).2) as [Hfinal Hlog].
  - pose proof (Emit_result m e env) as Hres.
    destruct (Emit m e env).1 as [[] m1]; simpl; [|by subst].
    destruct Hres as (info & Hlook & ->). simpl. by apply (Htable _ _ _ Hlook).
  - by rewrite Emit_graph.
  - split; [done|]. by constructor.
Qed.

(** In a state without entries every event of a sequence is refused. *)
Lemma run_no_entries m es env :
  (∀ t, lookup2 (graph m) (current m) t = None) →
  (run m es env).1 = ((λ e, mkStep (current m) e false) <$> es, m).
Proof.
  intros Hnone. revert env. induction es as [|e es IH]; intros env; [done|].
  rewrite run_cons, (Emit_no_entry _ _ _ (Hnone _)). simpl. by rewrite IH.
Qed.

(** A machine without callbacks leaves the caller's state as it is. *)
Lemma run_no_callbacks m es env :
  ignore m = None →
  (∀ s t info, lookup2 (graph m) s t = Some info → cb info = None) →
  (run m es env).2 = env.
Proof.
  revert m env. induction es as [|e es IH]; intros m env Hig Htable; [done|].
  rewrite run_cons. simpl.
  assert (Henv : (Emit m e env).2 = env).
  { destruct (lookup2 (graph m) (current m) (Type' e)) as [info|] eqn:Hlook.
    - by rewrite (Emit_unguarded _ _ _ _ Hlook (Htable _ _ _ Hlook)).
    - by rewrite (Emit_no_entry _ _ _ Hlook), Hig. }
  rewrite Henv. apply IH.
  - by rewrite Emit_ignore.
  - by rewrite Emit_graph.
Qed.

(** X3. A run of a machine built by [NewFSM] is a walk along the edges of
    the list: after a call that returned true the machine is in the [To]
    of an edge of the list that leaves the state the machine was in and
    carries the type of the event; after a call that returned false it
    is in the state it was in. *)
Theorem run_follows_edges st edges ig m es env i s :
  NewFSM st edges ig = (Some m, None) →
  (run m es env).1.1 !! i = Some s →
  if accepted s
  then ∃ edge,
         edge ∈ edges ∧ From edge = before s ∧
         Event_ edge = Type' (event s) ∧
         state_after (run m es env).1.1 (current (run m es env).1.2) i
           = To edge
  else state_after (run m es env).1.1 (current (run m es env).1.2) i
         = before s.
Proof.
  intros (Hbuild & _ & _)%NewFSM_Some Hi.
  pose proof (run_path m es env i s Hi) as Hpath.
  destruct (accepted s); [|done].
  destruct Hpath as (info & Hlook & Hafter).
  apply (built_lookup2 _ _ _ _ _ Hbuild) in Hlook
    as (edge & Hin & HF & HE & ->).
  by exists edge.
Qed.

(** X4. A machine built by [NewFSM] never leaves the states that were
    declared: before every call of a run, and at the end of the run, the
    current state is the initial state or the [To] of an edge of the
    list. *)
Theorem run_stays_declared st edges ig m es env :
  NewFSM st edges ig = (Some m, None) →
  current (run m es env).1.2 ∈ st :: (To <$> edges) ∧
  Forall (λ s, before s ∈ st :: (To <$> edges)) (run m es env).1.1.
Proof.
  intros (Hbuild & Hst & _)%NewFSM_Some.
  apply (run_closed (λ s, s ∈ st :: (To <$> edges))).
  - rewrite Hst. by left.
  - intros s t info Hlook.
    apply (built_lookup2 _ _ _ _ _ Hbuild) in Hlook
      as (edge & Hin & _ & _ & ->).
    right. simpl. by apply list_elem_of_fmap_2.
Qed.

(** X5. One call of [Emit] calls at most one callback, on the event it
    was given, and adds it after the calls made before.  The ignore hook
    is called only when the table has no entry, and then [Emit] returns
    false; when no callback is called the caller's state is as it was. *)
Theorem Emit_calls_at_most_one m e env :
  ∃ l,
    calls (Emit m e env).2 = calls env ++ l ∧
    (l = [] ∨ l = [IgnoreCall e] ∨ l = [GuardCall e]) ∧
    (l = [IgnoreCall e] →
       lookup2 (graph m) (current m) (Type' e) = None ∧
       (Emit m e env).1 = (false, m)) ∧
    (l = [] → world (Emit m e env).2 = world env).
Proof.
  destruct (lookup2 (graph m) (current m) (Type' e)) as [info|] eqn:Hlook.
  - destruct (cb info) as [f|] eqn:Hcb.
    + rewrite (Emit_guarded _ _ _ _ _ Hlook Hcb). simpl.
      exists [GuardCall e]. split; [done|]. split; [by eauto|]. by split.
    + rewrite (Emit_unguarded _ _ _ _ Hlook Hcb). simpl.
      exists []. rewrite app_nil_r. split; [done|]. split; [by eauto|]. by split.
  - rewrite (Emit_no_entry _ _ _ Hlook). simpl.
    destruct (ignore m) as [ig|]; simpl.
    + exists [IgnoreCall e]. split; [done|]. split; [by eauto|]. by split.
    + exists []. rewrite app_nil_r. split; [done|]. split; [by eauto|]. by split.
Qed.

(** X6. A state without outgoing edges is final: when the list given to
    [NewFSM] has no edge from the current state, every event of every
    sequence is refused and the machine stays as it is. *)
Theorem run_stuck_without_edges st edges ig m0 m es env :
  NewFSM st edges ig = (Some m0, None) →
  graph m = graph m0 →
  (∀ edge, edge ∈ edges → From edge ≠ current m) →
  (run m es env).1 = ((λ e, mkStep (current m) e false) <$> es, m).
Proof.
  intros (Hbuild & _ & _)%NewFSM_Some Hgraph Hno.
  apply run_no_entries. intros t. rewrite Hgraph.
  apply (built_lookup2_None _ _ _ _ Hbuild).
  intros edge Hin [HF _]. by apply (Hno edge Hin).
Qed.

(** X7. The ignore hook has no say in a transition: with any other hook,
    or none, one call of [Emit] on the same event in the same state of
    the caller returns the same boolean and leaves the same current
    state. *)
Theorem Emit_ignore_irrelevant m ig e env :
  (Emit {| graph := graph m; current := current m; ignore := ig |} e env).1.1
    = (Emit m e env).1.1 ∧
  current
    (Emit {| graph := graph m; current := current m; ignore := ig |} e env).1.2
    = current (Emit m e env).1.2.
Proof.
  destruct (lookup2 (graph m) (current m) (Type' e)) as [info|] eqn:Hlook.
  - destruct (cb info) as [f|] eqn:Hcb.
    + rewrite (Emit_guarded m _ _ _ _ Hlook Hcb).
      rewrite (Emit_guarded {| graph := graph m |} _ _ info f Hlook Hcb).
      simpl. by destruct (f e (world env)).1.
    + rewrite (Emit_unguarded m _ _ _ Hlook Hcb).
      by rewrite (Emit_unguarded {| graph := graph m |} _ _ info Hlook Hcb).
  - rewrite (Emit_no_entry m _ _ Hlook).
    by rewrite (Emit_no_entry {| graph := graph m |} _ _ Hlook).
Qed.

(** X8. A machine built without any callback (no ignore hook, no edge
    with a [Callback]) never touches the caller's state and calls
    nothing, whatever the sequence of events. *)
Theorem run_without_callbacks st edges m es env :
  NewFSM st edges None = (Some m, None) →
  (∀ edge, edge ∈ edges → Callback_ edge = None) →
  (run m es env).2 = env.
Proof.
  intros (Hbuild & _ & Hig)%NewFSM_Some Hnocb.
  apply run_no_callbacks; [done|].
  intros s t info Hlook.
  apply (built_lookup2 _ _ _ _ _ Hbuild) in Hlook
    as (edge & Hin & _ & _ & ->).
  by apply Hnocb.
Qed.

(** ** The builder on parts of a list *)

Lemma build_app g edges1 edges2 :
  build g (edges1 ++ edges2) =
    match build g edges1 with
    | Some g1 => build g1 edges2
    | None => None
    end.
Proof.
  revert g. induction edges1 as [|edge edges1 IH]; intros g; simpl; [done|].
  destruct (add_edge g edge) as [g1|]; [apply IH|done].
Qed.

(** The outer map after one round of the loop. *)
Lemma add_edge_outer g edge g' s :
  add_edge g edge = Some g' →
  g' !! s =
    if decide (From edge = s)
    then Some (<[Event_ edge := entry_of edge]> (default ∅ (g !! From edge)))
    else g !! s.
Proof.
  rewrite add_edge_eq.
  destruct (lookup2 g (From edge) (Event_ edge)); [done|].
  intros [= <-]. apply lookup_insert.
Qed.

Lemma build_outer g edges g' :
  build g edges = Some g' →
  (∀ s, is_Some (g' !! s) ↔
        is_Some (g !! s) ∨ ∃ edge, edge ∈ edges ∧ From edge = s) ∧
  ((∀ s, g !! s ≠ Some ∅) → ∀ s, g' !! s ≠ Some ∅).
Proof.
  revert g. induction edges as [|edge edges IH]; intros g; simpl.
  { intros [= ->]. split; [|done]. intros s. split; [by left|].
    intros [?|(? & []%elem_of_nil & _)]; done. }
  destruct (add_edge g edge) as [g1|] eqn:Hadd; [|done].
  intros Hbuild. destruct (IH _ Hbuild) as [Hkeys Hinner]. split.
  - intros s. rewrite Hkeys, (add_edge_outer _ _ _ s Hadd). split.
    + intros [Hs|(edge' & Hin & HF)].
      * case_decide as HF; [|by left].
        right. exists edge. split; [by left|done].
      * right. exists edge'. split; [by right|done].
    + intros [Hs|(edge' & [->|Hin]%elem_of_cons & HF)].
      * left. by case_decide.
      * left. by rewrite decide_True.
      * right. by exists edge'.
  - intros Hg. apply Hinner. intros s.
    rewrite (add_edge_outer _ _ _ s Hadd). case_decide; [|apply Hg].
    intros [= Hempty]. by apply insert_non_empty in Hempty.
Qed.

(** X9. Edges can be dropped from a list that [NewFSM] accepts: on every
    list made of some of its edges, in any order, [NewFSM] succeeds too,
    and every entry of the smaller table is an entry of the larger
    one. *)
Theorem NewFSM_fewer_edges st edges edges' ig m :
  edges' ⊆+ edges →
  NewFSM st edges ig = (Some m, None) →
  ∃ m', NewFSM st edges' ig = (Some m', None) ∧
        ∀ s t info,
          lookup2 (graph m') s t = Some info →
          lookup2 (graph m) s t = Some info.
Proof.
  intros [rest Hperm]%submseteq_Permutation (Hbuild & _ & _)%NewFSM_Some.
  rewrite (build_Permutation ∅ _ _ Hperm), build_app in Hbuild.
  rewrite NewFSM_build.
  destruct (build ∅ edges') as [g'|]; [|done].
  eexists. split; [done|]. simpl.
  intros s t info. by apply (build_lookup2_keep g' rest).
Qed.

(** X10. The table of a machine built by [NewFSM] has an inner map for a
    state exactly when an edge of the list leaves that state, and no
    inner map is empty. *)
Theorem NewFSM_outer_keys st edges ig m s :
  NewFSM st edges ig = (Some m, None) →
  (is_Some (graph m !! s) ↔ ∃ edge, edge ∈ edges ∧ From edge = s) ∧
  graph m !! s ≠ Some ∅.
Proof.
  intros (Hbuild & _ & _)%NewFSM_Some.
  destruct (build_outer _ _ _ Hbuild) as [Hkeys Hinner]. split.
  - rewrite Hkeys, lookup_empty. split; [|by right].
    by intros [[? ?]|?].
  - apply Hinner. intros s'. by rewrite lookup_empty.
Qed.

(** X11. [Emit] reads only the type of an event; what the event carries
    matters to the callbacks alone.  Two events of the same type, on
    which the guard of the entry (if there is one) answers the same, get
    the same boolean and leave the same machine. *)
Theorem Emit_payload_blind m e e' env :
  Type' e = Type' e' →
  (∀ info f,
     lookup2 (graph m) (current m) (Type' e) = Some info →
     cb info = Some f →
     (f e (world env)).1 = (f e' (world env)).1) →
  (Emit m e env).1 = (Emit m e' env).1.
Proof.
  intros Htype Hguard.
  destruct (lookup2 (graph m) (current m) (Type' e)) as [info|] eqn:Hlook.
  - destruct (cb info) as [f|] eqn:Hcb.
    + rewrite (Emit_guarded m e _ _ _ Hlook Hcb).
      rewrite Htype in Hlook.
      rewrite (Emit_guarded m e' _ _ _ Hlook Hcb). simpl.
      by rewrite (Hguard info f).
    + rewrite (Emit_unguarded m e _ _ Hlook Hcb).
      rewrite Htype in Hlook.
      by rewrite (Emit_unguarded m e' _ _ Hlook Hcb).
  - rewrite (Emit_no_entry m e _ Hlook).
    rewrite Htype in Hlook.
    by rewrite (Emit_no_entry m e' _ Hlook).
Qed.

(** The calls that one [Emit] adds to the record. *)
Lemma Emit_calls m e env :
  ∃ l, calls (Emit m e env).2 = calls env ++ l ∧
       (l = [] ∨ l = [IgnoreCall e] ∨ l = [GuardCall e]).
Proof.
  destruct (lookup2 (graph m) (current m) (Type' e)) as [info|] eqn:Hlook.
  - destruct (cb info) as [f|] eqn:Hcb.
    + rewrite (Emit_guarded _ _ _ _ _ Hlook Hcb). simpl. eauto.
    + rewrite (Emit_unguarded _ _ _ _ Hlook Hcb). simpl.
      exists []. rewrite app_nil_r. eauto.
  - rewrite (Emit_no_entry _ _ _ Hlook).
    destruct (ignore m) as [ig|]; simpl; [by eauto|].
    exists []. rewrite app_nil_r. eauto.
Qed.

(** X12. A run over [n] events makes at most [n] callback calls, each on
    an event of the sequence, and keeps the record of the calls made
    before the run. *)
Theorem run_calls_bounded m es env :
  ∃ l, calls (run m es env).2 = calls env ++ l ∧
       (length l ≤ length es)%nat ∧
       Forall (λ c, ∃ e, e ∈ es ∧ (c = IgnoreCall e ∨ c = GuardCall e)) l.
Proof.
  revert m env. induction es as [|e es IH]; intros m env.
  { exists []. simpl. rewrite app_nil_r. by repeat split. }
  rewrite run_cons. simpl.
  destruct (Emit_calls m e env) as (l1 & Hl1 & Hcase).
  destruct (IH (Emit m e env).1.2 (Emit m e env).2) as (l2 & Hl2 & Hlen & Hall).
  exists (l1 ++ l2). rewrite Hl2, Hl1, <-app_assoc. split; [done|]. split.
  - rewrite length_app.
    destruct Hcase as [->|[->| ->]]; simpl; lia.
  - apply Forall_app. split.
    + destruct Hcase as [->|[->| ->]]; repeat constructor;
        exists e; (split; [by left|by eauto]).
    + eapply Forall_impl; [exact Hall|].
      intros c (e' & Hin & Hc). exists e'. split; [by right|done].
Qed.

End FSM.

(** ** A concrete machine: a door with a lock

    Events carry the number of the key that is tried; the caller's state
    counts how many times a callback ran. *)

Definition Closed : StateNode := 0.
Definition Opened : StateNode := 1.
Definition Locked : StateNode := 2.

Definition EvOpen : EventType := 10.
Definition EvClose : EventType := 11.
Definition EvLock : EventType := 12.
Definition EvUnlock : EventType := 13.
Definition EvKnock : EventType := 14.

(** A guard with a side effect: it counts the attempts. *)
Definition key_fits : @CallbackFn Z nat :=
  λ e n, (Unwrap e =? 42, S n).

(** The same decision without the side effect. *)
Definition key_fits_pure : @CallbackFn Z nat :=
  λ e n, (Unwrap e =? 42, n).

Definition note_ignored : @CallbackFn Z nat :=
  λ e n, (true, (n + 100)%nat).

Definition door_edges (guard : @CallbackFn Z nat) : list (@TransEdge Z nat) :=
  [ mkTransEdge Closed EvOpen Opened None;
    mkTransEdge Opened EvClose Closed None;
    mkTransEdge Closed EvLock Locked (Some guard);
    mkTransEdge Locked EvUnlock Closed (Some guard);
    mkTransEdge Closed EvKnock Closed None ].

Definition door_table (guard : @CallbackFn Z nat)
  : gmap StateNode (gmap EventType (@stateInfo Z nat)) :=
  default ∅ (build ∅ (door_edges guard)).

Definition door : @stateMachineImpl Z nat :=
  {| graph := door_table key_fits;
     current := Closed;
     ignore := Some note_ignored |}.

Definition env0 : @Env Z nat := {| world := 0%nat; calls := [] |}.

Example door_built :
  NewFSM Closed (door_edges key_fits) (Some note_ignored) = (Some door, None).
Proof. reflexivity. Qed.

Example door_twice_refused :
  NewFSM Closed
    (door_edges key_fits ++ [mkTransEdge Closed EvOpen Locked (Some key_fits)])
    None
  = (None, Some "invalid fsm"%string).
Proof. reflexivity. Qed.

Example door_opens :
  (Emit door (mkEvent EvOpen 0) env0).1.1 = true ∧
  current (Emit door (mkEvent EvOpen 0) env0).1.2 = Opened.
Proof. split; reflexivity. Qed.

Example door_wrong_key :
  Emit door (mkEvent EvLock 7) env0 =
    ((false, door),
     {| world := 1%nat; calls := [GuardCall (mkEvent EvLock 7)] |}).
Proof. reflexivity. Qed.

Example door_close_when_closed :
  Emit door (mkEvent EvClose 0) env0 =
    ((false, door),
     {| world := 100%nat; calls := [IgnoreCall (mkEvent EvClose 0)] |}).
Proof. reflexivity. Qed.

Example door_day :
  accepted <$>
    (run door [mkEvent EvOpen 0; mkEvent EvOpen 0; mkEvent EvClose 0;
               mkEvent EvLock 7; mkEvent EvLock 42; mkEvent EvKnock 0]
       env0).1.1
  = [true; false; true; false; true; false].
Proof. reflexivity. Qed.

(** A guard that reads the caller's state is not pure, and then two fresh
    runs of the same sequence need not agree. *)
Definition every_other : @CallbackFn Z nat :=
  λ e n, (Nat.even n, S n).

Example impure_guard_differs :
  (fresh_run Closed (door_edges every_other) None [mkEvent EvLock 0] env0).1
    = Some ([true], Locked) ∧
  (fresh_run Closed (door_edges every_other) None [mkEvent EvLock 0]
     (fresh_run Closed (door_edges every_other) None [mkEvent EvLock 0] env0).2).1
    = Some ([false], Closed).
Proof. split; reflexivity. Qed.

Definition door_day_events : list (@Event Z) :=
  [ mkEvent EvOpen 0; mkEvent EvOpen 0; mkEvent EvClose 0;
    mkEvent EvLock 7; mkEvent EvLock 42; mkEvent EvKnock 0 ].

Lemma door_edges_NoDup guard : NoDup (edge_key <$> door_edges guard).
Proof. by apply (bool_decide_unpack _). Qed.

Lemma door_edges_pure : pure_guards (door_edges key_fits_pure).
Proof.
  intros edge f Hin Hcb. unfold door_edges in Hin.
  repeat (apply elem_of_cons in Hin as [->|Hin]); simpl in Hcb;
    try discriminate; try (by apply elem_of_nil in Hin);
    injection Hcb as <-; by exists (λ e, Unwrap e =? 42).
Qed.

(** ** The theorems at the door *)

Lemma Emit_unregistered_witness :
  lookup2 (graph door) (current door) (Type' (mkEvent EvClose 0)) = None ∧
  (Emit door (mkEvent EvClose 0) env0).1 = (false, door) ∧
  current (Emit door (mkEvent EvClose 0) env0).1.2 = Closed ∧
  (Emit door (mkEvent EvClose 0) env0).2 =
    {| world := 100%nat; calls := [IgnoreCall (mkEvent EvClose 0)] |}.
Proof.
  split; [reflexivity|].
  exact (Emit_unregistered door (mkEvent EvClose 0) env0 eq_refl).
Defined.

Lemma Emit_guard_rejects_witness :
  lookup2 (graph door) (current door) (Type' (mkEvent EvLock 7))
    = Some {| state := Locked; cb := Some key_fits |} ∧
  (key_fits (mkEvent EvLock 7) (world env0)).1 = false ∧
  (Emit door (mkEvent EvLock 7) env0).1 = (false, door) ∧
  current (Emit door (mkEvent EvLock 7) env0).1.2 = Closed ∧
  calls (Emit door (mkEvent EvLock 7) env0).2 = [GuardCall (mkEvent EvLock 7)] ∧
  world (Emit door (mkEvent EvLock 7) env0).2 = 1%nat.
Proof.
  split; [reflexivity|]. split; [reflexivity|].
  exact (Emit_guard_rejects door (mkEvent EvLock 7) env0
           {| state := Locked; cb := Some key_fits |} key_fits
           eq_refl eq_refl eq_refl).
Defined.

Lemma Emit_transitions_witness :
  (* a guard that answers true *)
  ((key_fits (mkEvent EvLock 42) (world env0)).1 = true ∧
   (Emit door (mkEvent EvLock 42) env0).1.1 = true ∧
   current (Emit door (mkEvent EvLock 42) env0).1.2 = Locked) ∧
  (* no guard, and a self-loop *)
  ((Emit door (mkEvent EvKnock 0) env0).1.1 = true ∧
   current (Emit door (mkEvent EvKnock 0) env0).1.2 = current door).
Proof.
  split.
  - split; [reflexivity|].
    destruct (Emit_transitions door (mkEvent EvLock 42) env0
                {| state := Locked; cb := Some key_fits |} eq_refl
                (or_intror (ex_intro _ key_fits (conj eq_refl eq_refl))))
      as (Hres & Hcur & _).
    split; [by rewrite Hres|exact Hcur].
  - destruct (Emit_transitions door (mkEvent EvKnock 0) env0
                {| state := Closed; cb := None |} eq_refl (or_introl eq_refl))
      as (Hres & _ & Hloop).
    split; [by rewrite Hres|exact (Hloop eq_refl)].
Defined.

Lemma Emit_false_keeps_state_witness :
  (Emit door (mkEvent EvLock 7) env0).1.1 = false ∧
  current (Emit door (mkEvent EvLock 7) env0).1.2 = current door ∧
  (Emit door (mkEvent EvLock 7) env0).1.2 = door.
Proof.
  split; [reflexivity|].
  exact (Emit_false_keeps_state door (mkEvent EvLock 7) env0 eq_refl).
Defined.

Lemma run_deterministic_witness :
  ∃ bs s,
    (run_twice Closed (door_edges key_fits_pure) (Some note_ignored)
       door_day_events env0).1 = (Some (bs, s), Some (bs, s)) ∧
    (fresh_run Closed (door_edges key_fits_pure) (Some note_ignored)
       door_day_events env0).1 = Some (bs, s) ∧
    (fresh_run Closed (door_edges key_fits_pure) (Some note_ignored)
       door_day_events {| world := 5%nat; calls := [] |}).1 = Some (bs, s).
Proof.
  exact (run_deterministic Closed (door_edges key_fits_pure)
           (Some note_ignored) door_day_events env0
           {| world := 5%nat; calls := [] |}
           (door_edges_NoDup key_fits_pure) door_edges_pure).
Defined.

Lemma CurrentState_latest_witness :
  NewFSM Closed (door_edges key_fits) (Some note_ignored) = (Some door, None) ∧
  ∃ info,
    lookup2 (graph door) Closed (Type' (mkEvent EvLock 42)) = Some info ∧
    (CurrentState (run door door_day_events env0).1.2
       (run door door_day_events env0).2).1.1 = state info.
Proof.
  split; [reflexivity|].
  exact (proj2 (CurrentState_latest Closed (door_edges key_fits)
                  (Some note_ignored) door door_day_events env0 eq_refl)).
Defined.

Lemma NewFSM_Permutation_witness :
  door_edges key_fits ≡ₚ reverse (door_edges key_fits) ∧
  (NewFSM Closed (door_edges key_fits) None = (None, Some "invalid fsm"%string) ↔
   NewFSM Closed (reverse (door_edges key_fits)) None
     = (None, Some "invalid fsm"%string)) ∧
  (∀ m m',
     (NewFSM Closed (door_edges key_fits) None).1 = Some m →
     (NewFSM Closed (reverse (door_edges key_fits)) None).1 = Some m' →
     graph m = graph m' ∧ ∀ es env, run m es env = run m' es env).
Proof.
  assert (Hperm : door_edges key_fits ≡ₚ reverse (door_edges key_fits))
    by (symmetry; apply reverse_Permutation).
  split; [exact Hperm|].
  exact (NewFSM_Permutation Closed _ _ None Hperm).
Defined.

(** ** A second machine: a fuse

    One edge, no callback at all; once blown the fuse has no way back. *)

Definition Intact : StateNode := 0.
Definition Blown : StateNode := 1.
Definition EvSurge : EventType := 1.

Definition fuse_edges : list (@TransEdge Z nat) :=
  [ mkTransEdge Intact EvSurge Blown None ].

Definition fuse : @stateMachineImpl Z nat :=
  {| graph := default ∅ (build ∅ fuse_edges);
     current := Intact;
     ignore := None |}.

Definition fuse_events : list (@Event Z) :=
  [ mkEvent EvSurge 230; mkEvent EvSurge 110; mkEvent 5 0 ].

Example fuse_built : NewFSM Intact fuse_edges None = (Some fuse, None).
Proof. reflexivity. Qed.

Example fuse_blows_once :
  accepted <$> (run fuse fuse_events env0).1.1 = [true; false; false] ∧
  current (run fuse fuse_events env0).1.2 = Blown.
Proof. split; reflexivity. Qed.

Lemma fuse_blown_no_edge edge : edge ∈ fuse_edges → From edge ≠ Blown.
Proof.
  unfold fuse_edges. intros [->|Hin%elem_of_nil]%elem_of_cons; done.
Qed.

Lemma fuse_no_callback edge : edge ∈ fuse_edges → Callback_ edge = None.
Proof.
  unfold fuse_edges. intros [->|Hin%elem_of_nil]%elem_of_cons; done.
Qed.

Lemma door_no_unlock_when_closed edge :
  edge ∈ door_edges key_fits →
  ¬ (From edge = current door ∧ Event_ edge = Type' (@mkEvent Z EvUnlock 42)).
Proof.
  unfold door_edges. intros Hin [HF HE].
  repeat (apply elem_of_cons in Hin as [->|Hin]); try discriminate.
  by apply elem_of_nil in Hin.
Qed.

Lemma door_lock_edge :
  mkTransEdge Closed EvLock Locked (Some key_fits) ∈ door_edges key_fits.
Proof. unfold door_edges. repeat constructor. Qed.

Lemma door_guard_same_on_wrong_keys info f :
  lookup2 (graph door) (current door) (Type' (@mkEvent Z EvLock 7)) = Some info →
  cb info = Some f →
  (f (mkEvent EvLock 7) (world env0)).1 = (f (mkEvent EvLock 8) (world env0)).1.
Proof.
  intros Hlook Hcb. vm_compute in Hlook. injection Hlook as <-.
  injection Hcb as <-. reflexivity.
Qed.

(** ** The further properties at the door and at the fuse *)

Lemma NewFSM_table_witness :
  NewFSM Closed (door_edges key_fits) (Some note_ignored) = (Some door, None) ∧
  current door = Closed ∧
  ignore door = Some note_ignored ∧
  ∃ edge, edge ∈ door_edges key_fits ∧ From edge = Closed ∧
          Event_ edge = EvLock ∧
          {| state := Locked; cb := Some key_fits |} =
            {| state := To edge; cb := Callback_ edge |}.
Proof.
  split; [reflexivity|].
  destruct (NewFSM_table Closed (door_edges key_fits) (Some note_ignored)
              door eq_refl) as (Hst & Hig & Htable).
  split; [exact Hst|]. split; [exact Hig|].
  apply (Htable Closed EvLock). reflexivity.
Defined.

Lemma Emit_follows_edges_witness :
  NewFSM Closed (door_edges key_fits) (Some note_ignored) = (Some door, None) ∧
  (Emit door (mkEvent EvLock 42) env0).1 = (true, set_current door Locked) ∧
  (Emit door (mkEvent EvLock 7) env0).1 = (false, door) ∧
  (Emit door (mkEvent EvUnlock 42) env0).1 = (false, door).
Proof.
  split; [reflexivity|]. split; [|split].
  - exact (proj1 (Emit_follows_edges Closed (door_edges key_fits)
                    (Some note_ignored) door door (mkEvent EvLock 42) env0
                    eq_refl eq_refl)
             _ door_lock_edge eq_refl eq_refl).
  - exact (proj1 (Emit_follows_edges Closed (door_edges key_fits)
                    (Some note_ignored) door door (mkEvent EvLock 7) env0
                    eq_refl eq_refl)
             _ door_lock_edge eq_refl eq_refl).
  - exact (proj2 (Emit_follows_edges Closed (door_edges key_fits)
                    (Some note_ignored) door door (mkEvent EvUnlock 42) env0
                    eq_refl eq_refl)
             door_no_unlock_when_closed).
Defined.

Lemma run_follows_edges_witness :
  (run door door_day_events env0).1.1 !! 4%nat
    = Some (mkStep Closed (mkEvent EvLock 42) true) ∧
  ∃ edge, edge ∈ door_edges key_fits ∧ From edge = Closed ∧
          Event_ edge = EvLock ∧
          state_after (run door door_day_events env0).1.1
            (current (run door door_day_events env0).1.2) 4 = To edge.
Proof.
  split; [reflexivity|].
  exact (run_follows_edges Closed (door_edges key_fits) (Some note_ignored)
           door door_day_events env0 4
           (mkStep Closed (mkEvent EvLock 42) true) eq_refl eq_refl).
Defined.

Lemma run_stays_declared_witness :
  current (run door door_day_events env0).1.2
    ∈ Closed :: (To <$> door_edges key_fits) ∧
  Forall (λ s, before s ∈ Closed :: (To <$> door_edges key_fits))
    (run door door_day_events env0).1.1.
Proof.
  exact (run_stays_declared Closed (door_edges key_fits) (Some note_ignored)
           door door_day_events env0 eq_refl).
Defined.

Lemma run_stuck_without_edges_witness :
  (run (set_current fuse Blown) fuse_events env0).1 =
    ((λ e, mkStep Blown e false) <$> fuse_events, set_current fuse Blown).
Proof.
  exact (run_stuck_without_edges Intact fuse_edges None fuse
           (set_current fuse Blown) fuse_events env0
           eq_refl eq_refl fuse_blown_no_edge).
Defined.

Lemma run_without_callbacks_witness :
  NewFSM Intact fuse_edges None = (Some fuse, None) ∧
  (run fuse fuse_events env0).2 = env0.
Proof.
  split; [reflexivity|].
  exact (run_without_callbacks Intact fuse_edges fuse fuse_events env0
           eq_refl fuse_no_callback).
Defined.

Lemma NewFSM_fewer_edges_witness :
  reverse (take 3 (door_edges key_fits)) ⊆+ door_edges key_fits ∧
  ∃ m', NewFSM Closed (reverse (take 3 (door_edges key_fits)))
          (Some note_ignored) = (Some m', None) ∧
        ∀ s t info,
          lookup2 (graph m') s t = Some info →
          lookup2 (graph door) s t = Some info.
Proof.
  assert (Hsub : reverse (take 3 (door_edges key_fits))
                   ⊆+ door_edges key_fits).
  { rewrite reverse_Permutation. apply submseteq_take. }
  split; [exact Hsub|].
  exact (NewFSM_fewer_edges Closed (door_edges key_fits) _
           (Some note_ignored) door Hsub eq_refl).
Defined.

Lemma NewFSM_outer_keys_witness :
  NewFSM Closed (door_edges key_fits) (Some note_ignored) = (Some door, None) ∧
  (is_Some (graph door !! Locked) ↔
     ∃ edge, edge ∈ door_edges key_fits ∧ From edge = Locked) ∧
  graph door !! Locked ≠ Some ∅.
Proof.
  split; [reflexivity|].
  exact (NewFSM_outer_keys Closed (door_edges key_fits) (Some note_ignored)
           door Locked eq_refl).
Defined.

Lemma Emit_payload_blind_witness :
  Type' (@mkEvent Z EvLock 7) = Type' (@mkEvent Z EvLock 8) ∧
  (Emit door (mkEvent EvLock 7) env0).1 = (Emit door (mkEvent EvLock 8) env0).1.
Proof.
  split; [reflexivity|].
  exact (Emit_payload_blind door (mkEvent EvLock 7) (mkEvent EvLock 8) env0
           eq_refl door_guard_same_on_wrong_keys).
Defined.
